(** * wayne.models: the [GaussianModel1D] class

    A shallow embedding of [src/wayne/models.py].  The class extends
    astropy's [Gaussian1D] (three stored parameters: amplitude, mean,
    stddev) with two derived read/write properties, [fwhm] and [flux], and
    a method [integrate] that bins the curve with the normal CDF.

    - Scalars are kept abstract behind the interface [Arith]: the
      arithmetic the module performs ([*], [/], [-], [np.sqrt], [np.pi] and
      the literals it writes).  Two interpretations are given: IEEE
      binary64 (what numpy computes with) and the real numbers (what the
      formulas mean, rounding left out).
    - [np.log], [scipy.stats.norm.cdf] and the text Python prints for a
      number are library functions; they are the interfaces [Log],
      [NormCdf] and [Repr].
    - Methods run in a small state-and-exception monad over the instance
      [self]; an exception leaves [self] as it was when it was raised. *)

From Stdlib Require Import String List Bool Arith Lia.
From Stdlib Require Import ZArith DecimalString Floats.
From Stdlib Require Import Reals Lra.
Import ListNotations.

Set Implicit Arguments.

(* A decimal literal of binary64 stands for the double nearest to it. *)
Set Warnings "-inexact-float".

(** ** Numeric interfaces *)

Class Arith (F : Type) : Type := {
  zero : F;                       (* the literal [0.] *)
  one : F;                        (* the literal [1.] *)
  two : F;                        (* the literal [2] *)
  np_pi : F;                      (* [np.pi] *)
  mul : F -> F -> F;              (* [a * b] *)
  div : F -> F -> F;              (* [a / b] *)
  sub : F -> F -> F;              (* [a - b] *)
  np_sqrt : F -> F                (* [np.sqrt] *)
}.

Class Log (F : Type) : Type := np_log : F -> F.

(** [norm_cdf x loc scale] is [scipy.stats.norm.cdf(x, loc, scale)] at one
    point; on an array it is applied to every element. *)
Class NormCdf (F : Type) : Type := norm_cdf : F -> F -> F -> F.

(** [repr x] is the text [str.format] substitutes for the number [x]. *)
Class Repr (F : Type) : Type := repr : F -> string.

(** [base_failure a b c kwargs] is what astropy's
    [Gaussian1D.__init__(self, a, b, c, **kwargs)] raises, if it raises:
    [Some what] for instance on a keyword it does not recognise, [None]
    when it accepts the call. *)
Class Base (F Opts : Type) : Type :=
  base_failure : F -> F -> F -> Opts -> option string.

(** ** Exceptions and outcomes *)

(** Exceptions are kept apart by where they are raised.  [ValueError msg]
    is what the two [raise ValueError(...)] statements of [__init__]
    build; [TypeError] is Python's answer to arithmetic on [None];
    [AttributeError] comes from reading an attribute the instance does
    not have.  [BaseError what] stands for whatever astropy's own
    initialiser raises, of whatever Python class (a [TypeError] on a
    keyword it does not recognise, for one), by its text: an error of the
    base class is never read as one of the two checks of [__init__]. *)
Inductive exn : Type :=
| ValueError (msg : string)
| TypeError
| AttributeError
| BaseError (what : string).

Inductive outcome (A : Type) : Type :=
| Returned (a : A)
| Raised (e : exn).

Arguments Returned {A} a.
Arguments Raised {A} e.

(** ** Keyword arguments of the constructor

    [None] for [amplitude], [stddev], [fwhm] and [flux] is Python's [None]
    (also their default); [None] for [mean] says that the caller left it
    out, so that the default [0.] applies.  [kwargs] is passed on to the
    base class unread. *)

Module Kw.
Record t (F Opts : Type) : Type := make {
  amplitude : option F;
  mean : option F;
  stddev : option F;
  fwhm : option F;
  flux : option F;
  kwargs : Opts
}.
End Kw.

(** ** Arrays *)

Section Arrays.
Context {A : Type}.

(** [np.roll(a, -1)]: every element moves one place to the left and the
    first one wraps around to the end. *)
Definition np_roll_left (a : list A) : list A :=
  match a with
  | [] => []
  | x :: rest => rest ++ [x]
  end.

(** [a[:-1]]: everything but the last element. *)
Definition drop_last (a : list A) : list A := removelast a.

(** Element-wise binary operation on two arrays of one shape. *)
Definition zip_with (f : A -> A -> A) (a b : list A) : list A :=
  map (fun p => f (fst p) (snd p)) (combine a b).
End Arrays.

(** ** Substrings *)

Definition contains (msg part : string) : Prop :=
  exists before after : string, msg = (before ++ part ++ after)%string.

(** ** Optional arguments *)

Section Conditions.
Context {A : Type}.

(** The value of a parameter whose default is [d]. *)
Definition default (d : A) (v : option A) : A :=
  match v with
  | Some x => x
  | None => d
  end.

(** Both given or both left out. *)
Definition ambiguous (a b : option A) : Prop :=
  (a <> None /\ b <> None) \/ (a = None /\ b = None).

(** One given, the other left out. *)
Definition exactly_one (a b : option A) : Prop :=
  (a <> None /\ b = None) \/ (a = None /\ b <> None).
End Conditions.

(** ** The model *)

Section Model.
Context {F Opts : Type}.
Context {arith : Arith F} {log : Log F} {cdf : NormCdf F} {rep : Repr F}.
Context {base : Base F Opts}.

(** The parameters astropy's [Gaussian1D] stores, with the options it was
    built with. *)
Record GaussianModel1D : Type := {
  amplitude : F;
  mean : F;
  stddev : F;
  options : Opts
}.

(** The instance under construction or use: [None] until the base class
    initialiser has run. *)
Definition self : Type := option GaussianModel1D.

Definition M (A : Type) : Type := self -> outcome A * self.

Definition ret {A} (a : A) : M A := fun s => (Returned a, s).

Definition bind {A B} (c : M A) (k : A -> M B) : M B :=
  fun s =>
    match c s with
    | (Returned a, s') => k a s'
    | (Raised e, s') => (Raised e, s')
    end.

Definition raise {A} (e : exn) : M A := fun s => (Raised e, s).

Local Notation "x <- c1 ;; c2" := (bind c1 (fun x => c2))
  (at level 61, c1 at next level, right associativity).
Local Notation "c1 ;; c2" := (bind c1 (fun _ => c2))
  (at level 61, right associativity).

(** Attribute reads and writes on [self]. *)
Definition getattr (attr : GaussianModel1D -> F) : M F :=
  fun s =>
    match s with
    | Some m => (Returned (attr m), s)
    | None => (Raised AttributeError, s)
    end.

Definition update (f : GaussianModel1D -> GaussianModel1D) : M unit :=
  fun s =>
    match s with
    | Some m => (Returned tt, Some (f m))
    | None => (Raised AttributeError, s)
    end.

Definition set_amplitude (v : F) : M unit :=
  update (fun m => {| amplitude := v; mean := mean m;
                      stddev := stddev m; options := options m |}).

Definition set_stddev (v : F) : M unit :=
  update (fun m => {| amplitude := amplitude m; mean := mean m;
                      stddev := v; options := options m |}).

(** [astropy.modeling.models.Gaussian1D.__init__(self, amplitude, mean,
    stddev, **kwargs)]: it raises what [base_failure] says, and otherwise
    stores the three parameters with the options. *)
Definition Gaussian1D__init__ (a b c : F) (kwargs : Opts) : M unit :=
  match base_failure a b c kwargs with
  | Some what => raise (BaseError what)
  | None =>
      fun _ => (Returned tt,
                Some {| amplitude := a; mean := b; stddev := c;
                        options := kwargs |})
  end.

(** The base initialiser accepts the call that [__init__] makes. *)
Definition base_accepts (kw : Kw.t F Opts) : Prop :=
  base_failure one (default zero (Kw.mean kw)) one (Kw.kwargs kw) = None.

(** [_gauss_StDev_to_FWHM = (2 * np.sqrt(2 * np.log(2)))] *)
Definition _gauss_StDev_to_FWHM : F :=
  mul two (np_sqrt (mul two (np_log two))).

(** [np.sqrt(2 * np.pi)] *)
Definition sqrt_2pi : F := np_sqrt (mul two np_pi).

(** [flux] getter:
    [self.amplitude * (self.stddev * np.sqrt(2 * np.pi))]. *)
Definition flux : M F :=
  a <- getattr amplitude ;;
  c <- getattr stddev ;;
  ret (mul a (mul c sqrt_2pi)).

(** [flux] setter:
    [self.amplitude = flux / (self.stddev * np.sqrt(2 * np.pi))].
    The divisor is a numpy scalar ([np.sqrt] returns one), so the quotient
    is numpy's: whatever [div] gives is stored, and nothing is raised. *)
Definition flux_setter (flux : F) : M unit :=
  c <- getattr stddev ;;
  set_amplitude (div flux (mul c sqrt_2pi)).

(** [fwhm] getter: [self.stddev * _gauss_StDev_to_FWHM]. *)
Definition fwhm : M F :=
  c <- getattr stddev ;;
  ret (mul c _gauss_StDev_to_FWHM).

(** [fwhm] setter: [self.stddev = fwhm / _gauss_StDev_to_FWHM]. *)
Definition fwhm_setter (fwhm : F) : M unit :=
  set_stddev (div fwhm _gauss_StDev_to_FWHM).

(** [integrate]:
<<
    cdf = scipy.stats.norm.cdf(limits, self.mean, self.stddev)
    area = (np.roll(cdf, -1) - cdf)[:-1]
    binned_flux = area * self.flux
>> *)
Definition integrate (limits : list F) : M (list F) :=
  b <- getattr mean ;;
  c <- getattr stddev ;;
  let cdf := map (fun x => norm_cdf x b c) limits in
  let area := drop_last (zip_with sub (np_roll_left cdf) cdf) in
  total <- flux ;;
  ret (map (fun p => mul p total) area).

(** What [str.format] prints for an argument that may be [None]. *)
Definition py_str (v : option F) : string :=
  match v with
  | Some x => repr x
  | None => "None"
  end.

Definition is_not_None (v : option F) : bool :=
  match v with
  | Some _ => true
  | None => false
  end.

Definition width_message (stddev fwhm : option F) : string :=
  ("You must set either fwhm OR stdev, not both or  neither. got stdev="
     ++ py_str stddev ++ " fwhm=" ++ py_str fwhm)%string.

Definition height_message (amplitude flux : option F) : string :=
  ("You must set either amplitude OR flux, not both or neither. got amplitude="
     ++ py_str amplitude ++ " flux=" ++ py_str flux)%string.

(** Assigning a property from an argument that is [None] would divide
    [None] by a number, which Python rejects with [TypeError]. *)
Definition assign (setter : F -> M unit) (v : option F) : M unit :=
  match v with
  | Some x => setter x
  | None => raise TypeError
  end.

(** [GaussianModel1D.__init__(self, amplitude=None, mean=0., stddev=None,
    fwhm=None, flux=None, **kwargs)] *)
Definition __init__ (kw : Kw.t F Opts) : M unit :=
  let mean := default zero (Kw.mean kw) in
  if negb (xorb (is_not_None (Kw.stddev kw)) (is_not_None (Kw.fwhm kw)))
  then raise (ValueError (width_message (Kw.stddev kw) (Kw.fwhm kw)))
  else
    if negb (xorb (is_not_None (Kw.flux kw))
                  (is_not_None (Kw.amplitude kw)))
    then raise (ValueError (height_message (Kw.amplitude kw) (Kw.flux kw)))
    else
      Gaussian1D__init__ one mean one (Kw.kwargs kw) ;;
      (match Kw.stddev kw with
       | Some c => set_stddev c
       | None => assign fwhm_setter (Kw.fwhm kw)
       end) ;;
      (match Kw.amplitude kw with
       | Some a => set_amplitude a
       | None => assign flux_setter (Kw.flux kw)
       end).

End Model.

Arguments GaussianModel1D : clear implicits.
Arguments self : clear implicits.
Arguments M : clear implicits.

(** ** The real numbers as scalars *)

#[export] Instance R_arith : Arith R := {|
  zero := 0%R;
  one := 1%R;
  two := 2%R;
  np_pi := PI;
  mul := Rmult;
  div := Rdiv;
  sub := Rminus;
  np_sqrt := sqrt
|}.

#[export] Instance R_log : Log R := ln.

(** ** IEEE binary64 as scalars

    numpy's [float64]: the operations are the correctly rounded ones of the
    kernel's primitive floats, [np.pi] is the double nearest to pi.  As in
    numpy, overflow, a division by zero and an invalid operation give an
    infinity or NaN (numpy warns there; it does not raise). *)

Definition b64_pi : float := 0x1.921fb54442d18p+1%float.

#[export] Instance b64_arith : Arith float := {|
  zero := 0%float;
  one := 1%float;
  two := 2%float;
  np_pi := b64_pi;
  mul := PrimFloat.mul;
  div := PrimFloat.div;
  sub := PrimFloat.sub;
  np_sqrt := PrimFloat.sqrt
|}.

(** ** Sample library functions for running the model on binary64 *)

Module Sample.

(** [np.log(2)] is the double nearest to ln 2.  The module takes no other
    logarithm; this table answers NaN anywhere else. *)
Definition b64_ln2 : float := 0x1.62e42fefa39efp-1%float.

Definition log_at_two : Log float :=
  fun x => if (x =? 2)%float then b64_ln2 else nan.

(** The distribution function of the point mass at [loc], standing for
    [scipy.stats.norm.cdf] where a concrete one is needed. *)
Definition step_cdf : NormCdf float :=
  fun x loc _ => if (x <? loc)%float then 0%float else 1%float.

Definition digits (z : Z) : string := NilZero.string_of_int (Z.to_int z).

(** An exact rendering of a double (sign, mantissa, binary exponent),
    standing for the shortest decimal that Python prints. *)
Definition exact_repr : Repr float :=
  fun x =>
    match Prim2SF x with
    | S754_zero s => (if s then "-0.0" else "0.0")%string
    | S754_infinity s => (if s then "-inf" else "inf")%string
    | S754_nan => "nan"%string
    | S754_finite s m e =>
        ((if s then "-" else "") ++ digits (Z.pos m)
           ++ "*2**" ++ digits e)%string
    end.

(** The base initialiser called without keyword options: it accepts
    every scalar. *)
Definition no_options {F : Type} : Base F unit := fun _ _ _ _ => None.

(** A model on binary64 without base-class options. *)
Definition model (a b c : float) : GaussianModel1D float unit :=
  {| amplitude := a; mean := b; stddev := c; options := tt |}.

(** Keyword arguments on binary64 without base-class options. *)
Definition kw (amplitude mean stddev fwhm flux : option float)
  : Kw.t float unit :=
  Kw.make amplitude mean stddev fwhm flux tt.

End Sample.

(** ** Proof automation *)

(** Closes a case whose hypotheses on the argument pairs contradict one
    another. *)
Ltac contradictory_pairs :=
  solve [exfalso; unfold ambiguous, exactly_one in *; intuition congruence].

(** ** Sums of bins *)

(** The sum of an array of reals, as [numpy.sum] over exact numbers. *)
Definition total (a : list R) : R := fold_right Rplus 0%R a.

(** ** The numbers that doubles stand for *)

(** The real number a finite double stands for; infinities and NaN are
    given 0, and no statement below reads them. *)
Definition SF2R (x : spec_float) : R :=
  match x with
  | S754_finite s m e =>
      ((if s then -1 else 1) * (IZR (Z.pos m) * powerRZ 2 e))%R
  | _ => 0%R
  end.

Definition value (x : float) : R := SF2R (Prim2SF x).

(** A normal double: finite, not zero and not subnormal, so the result of
    an operation that neither overflowed nor underflowed. *)
Definition is_normal (x : float) : bool :=
  match classify x with
  | PNormal | NNormal => true
  | _ => false
  end.

Definition sign_factor (s : bool) : R := if s then (-1)%R else 1%R.

(** [located N U mrs]: the number [N / U] lies in [[m, m + 1)] for the
    mantissa [m] of [mrs], and the round and sticky bits of [mrs] say
    where. *)
Definition located (N U : Z) (mrs : shr_record) : Prop :=
  (0 <= shr_m mrs
   /\ shr_m mrs * U <= N < (shr_m mrs + 1) * U
   /\ match shr_r mrs, shr_s mrs with
      | false, false => N = shr_m mrs * U
      | false, true => shr_m mrs * U < N /\ 2 * (N - shr_m mrs * U) < U
      | true, false => 2 * (N - shr_m mrs * U) = U
      | true, true => 2 * (N - shr_m mrs * U) > U
      end)%Z.

(** * Properties *)

(** ** Arrays *)

Section ArrayFacts.
Context {A : Type}.

Lemma np_roll_left_length (a : list A) :
  length (np_roll_left a) = length a.
Proof.
  destruct a as [|x rest]; simpl; [reflexivity|].
  rewrite length_app; simpl; lia.
Qed.

Lemma np_roll_left_nth (a : list A) (i : nat) (d : A) :
  S i < length a -> nth i (np_roll_left a) d = nth (S i) a d.
Proof.
  destruct a as [|x rest]; simpl; intros Hi; [lia|].
  apply app_nth1; lia.
Qed.

Lemma drop_last_length (a : list A) :
  length (drop_last a) = length a - 1.
Proof.
  unfold drop_last. rewrite removelast_firstn_len, length_firstn. lia.
Qed.

Lemma drop_last_nth (a : list A) (i : nat) (d : A) :
  i < length a - 1 -> nth i (drop_last a) d = nth i a d.
Proof.
  intros Hi. unfold drop_last.
  rewrite removelast_firstn_len.
  rewrite nth_firstn.
  destruct (Nat.ltb_spec i (Nat.pred (length a))); [reflexivity|lia].
Qed.

Lemma zip_with_length (f : A -> A -> A) (a b : list A) :
  length a = length b -> length (zip_with f a b) = length b.
Proof.
  intros E. unfold zip_with. rewrite length_map, length_combine. lia.
Qed.

Lemma zip_with_nth (f : A -> A -> A) (a b : list A) (i : nat) (d : A) :
  length a = length b -> i < length b ->
  nth i (zip_with f a b) d = f (nth i a d) (nth i b d).
Proof.
  intros E Hi. unfold zip_with.
  rewrite (nth_indep _ d (f (fst (d, d)) (snd (d, d)))).
  - rewrite (map_nth (fun p => f (fst p) (snd p))).
    rewrite combine_nth by exact E. reflexivity.
  - rewrite length_map, length_combine. lia.
Qed.

Lemma map_nth_inside {B : Type} (g : A -> B) (a : list A) (i : nat)
      (d : A) (d' : B) :
  i < length a -> nth i (map g a) d' = g (nth i a d).
Proof.
  intros Hi. rewrite (nth_indep _ d' (g d)) by (rewrite length_map; exact Hi).
  apply map_nth.
Qed.
End ArrayFacts.

(** ** Substrings *)

Lemma contains_here (before part after : string) :
  contains (before ++ part ++ after) part.
Proof. exists before, after. reflexivity. Qed.

Lemma contains_at_end (before part : string) :
  contains (before ++ part) part.
Proof.
  exists before, EmptyString.
  induction before as [|ch before IH]; simpl.
  - induction part as [|ch part IH]; simpl; [reflexivity|].
    now rewrite <- IH.
  - now rewrite <- IH.
Qed.

Lemma contains_after (before msg part : string) :
  contains msg part -> contains (before ++ msg) part.
Proof.
  intros (pre & post & ->). exists (before ++ pre)%string, post.
  induction before as [|ch before IH]; simpl; [reflexivity|].
  now rewrite IH.
Qed.

(** ** Conditions on the constructor's arguments *)

Section ConditionFacts.
Context {A : Type}.

Lemma ambiguous_or_exactly_one (a b : option A) :
  ambiguous a b \/ exactly_one a b.
Proof.
  unfold ambiguous, exactly_one.
  destruct a, b; intuition congruence.
Qed.

Lemma exactly_one_not_ambiguous (a b : option A) :
  exactly_one a b -> ~ ambiguous a b.
Proof.
  unfold ambiguous, exactly_one. intuition congruence.
Qed.
End ConditionFacts.

(** ** The methods, run on an initialised instance *)

Section MethodFacts.
Context {F Opts : Type}.
Context {arith : Arith F} {log : Log F} {cdf : NormCdf F} {rep : Repr F}.
Context {base : Base F Opts}.

Implicit Types (m : GaussianModel1D F Opts) (s : self F Opts).
Implicit Types (kw : Kw.t F Opts).

Lemma flux_run m :
  flux (Some m)
  = (Returned (mul (amplitude m) (mul (stddev m) sqrt_2pi)), Some m).
Proof. reflexivity. Qed.

Lemma flux_setter_run (v : F) m :
  flux_setter v (Some m)
  = (Returned tt,
     Some {| amplitude := div v (mul (stddev m) sqrt_2pi);
             mean := mean m; stddev := stddev m; options := options m |}).
Proof. reflexivity. Qed.

Lemma fwhm_run m :
  fwhm (Some m)
  = (Returned (mul (stddev m) _gauss_StDev_to_FWHM), Some m).
Proof. reflexivity. Qed.

Lemma fwhm_setter_run (v : F) m :
  fwhm_setter v (Some m)
  = (Returned tt,
     Some {| amplitude := amplitude m; mean := mean m;
             stddev := div v _gauss_StDev_to_FWHM;
             options := options m |}).
Proof. reflexivity. Qed.

(** What [integrate] returns on an initialised instance. *)
Lemma integrate_run (limits : list F) m :
  integrate limits (Some m)
  = (Returned
       (map (fun p => mul p (mul (amplitude m) (mul (stddev m) sqrt_2pi)))
            (drop_last
               (zip_with sub
                  (np_roll_left
                     (map (fun x => norm_cdf x (mean m) (stddev m)) limits))
                  (map (fun x => norm_cdf x (mean m) (stddev m)) limits)))),
     Some m).
Proof. reflexivity. Qed.

Lemma integrate_uninitialised (limits : list F) :
  integrate limits (None : self F Opts) = (Raised AttributeError, None).
Proof. reflexivity. Qed.

(** *** Error messages *)

Lemma width_message_contains (c w : option F) :
  contains (width_message c w) (py_str c)
  /\ contains (width_message c w) (py_str w).
Proof.
  unfold width_message. split.
  - apply contains_here.
  - apply contains_after, contains_after, contains_at_end.
Qed.

Lemma height_message_contains (a f : option F) :
  contains (height_message a f) (py_str a)
  /\ contains (height_message a f) (py_str f).
Proof.
  unfold height_message. split.
  - apply contains_here.
  - apply contains_after, contains_after, contains_at_end.
Qed.

Lemma messages_differ (c w a f : option F) :
  width_message c w <> height_message a f.
Proof.
  unfold width_message, height_message. simpl. intros E.
  repeat (injection E as _ E). discriminate E.
Qed.

(** *** The three ways [__init__] can end *)

Lemma init_width_error kw s :
  ambiguous (Kw.stddev kw) (Kw.fwhm kw) ->
  __init__ kw s
  = (Raised (ValueError (width_message (Kw.stddev kw) (Kw.fwhm kw))), s).
Proof.
  destruct kw as [a b c w f o]; simpl.
  destruct c, w; intros H; try reflexivity; contradictory_pairs.
Qed.

Lemma init_height_error kw s :
  exactly_one (Kw.stddev kw) (Kw.fwhm kw) ->
  ambiguous (Kw.amplitude kw) (Kw.flux kw) ->
  __init__ kw s
  = (Raised (ValueError (height_message (Kw.amplitude kw) (Kw.flux kw))),
     s).
Proof.
  destruct kw as [a b c w f o]; simpl.
  destruct c, w; intros Hw; try contradictory_pairs;
    destruct a, f; intros Hh; try reflexivity; contradictory_pairs.
Qed.

(** Once both checks have passed, the base initialiser decides. *)
Lemma init_valid_accepted kw s :
  exactly_one (Kw.stddev kw) (Kw.fwhm kw) ->
  exactly_one (Kw.amplitude kw) (Kw.flux kw) ->
  base_accepts kw ->
  exists m, __init__ kw s = (Returned tt, Some m).
Proof.
  destruct kw as [a b c w f o]; unfold base_accepts; simpl.
  destruct c, w; intros Hw; try contradictory_pairs;
    destruct a, f; intros Hh; try contradictory_pairs;
    intros Hb; unfold __init__, bind, Gaussian1D__init__; simpl;
    rewrite Hb;
    eexists; reflexivity.
Qed.

Lemma init_valid_rejected kw s (what : string) :
  exactly_one (Kw.stddev kw) (Kw.fwhm kw) ->
  exactly_one (Kw.amplitude kw) (Kw.flux kw) ->
  base_failure one (default zero (Kw.mean kw)) one (Kw.kwargs kw)
  = Some what ->
  __init__ kw s = (Raised (BaseError what), s).
Proof.
  destruct kw as [a b c w f o]; simpl.
  destruct c, w; intros Hw; try contradictory_pairs;
    destruct a, f; intros Hh; try contradictory_pairs;
    intros Hb; unfold __init__, bind, Gaussian1D__init__; simpl;
    rewrite Hb;
    reflexivity.
Qed.

End MethodFacts.

(** ** The constructor *)

Section Constructor.
Context {F Opts : Type}.
Context {arith : Arith F} {log : Log F} {rep : Repr F}.
Context {base : Base F Opts}.

Implicit Types (kw : Kw.t F Opts) (s : self F Opts).

(** C1.  [__init__] raises its [ValueError] exactly when the width pair
    ([stddev], [fwhm]) or the height pair ([amplitude], [flux]) is
    ambiguous, that is, both members given or both left out.  The message
    of that error contains the text of both values of an ambiguous pair.
    Anything else it raises comes from the base initialiser, which is
    called only after both checks have passed. *)
Theorem init_raises_iff_ambiguous kw s :
  ((exists msg, fst (__init__ kw s) = Raised (ValueError msg))
   <-> ambiguous (Kw.stddev kw) (Kw.fwhm kw)
       \/ ambiguous (Kw.amplitude kw) (Kw.flux kw))
  /\ (forall msg,
        fst (__init__ kw s) = Raised (ValueError msg) ->
        (ambiguous (Kw.stddev kw) (Kw.fwhm kw)
         /\ contains msg (py_str (Kw.stddev kw))
         /\ contains msg (py_str (Kw.fwhm kw)))
        \/ (ambiguous (Kw.amplitude kw) (Kw.flux kw)
            /\ contains msg (py_str (Kw.amplitude kw))
            /\ contains msg (py_str (Kw.flux kw))))
  /\ (forall e,
        fst (__init__ kw s) = Raised e ->
        (exists msg, e = ValueError msg)
        \/ (exactly_one (Kw.stddev kw) (Kw.fwhm kw)
            /\ exactly_one (Kw.amplitude kw) (Kw.flux kw)
            /\ exists what,
                 e = BaseError what
                 /\ base_failure one (default zero (Kw.mean kw)) one
                                 (Kw.kwargs kw)
                    = Some what)).
Proof.
  destruct (ambiguous_or_exactly_one (Kw.stddev kw) (Kw.fwhm kw))
    as [Hw|Hw].
  - rewrite (init_width_error _ s Hw); cbn [fst snd]. repeat split.
    + intros _; now left.
    + intros _; eauto.
    + intros msg E. injection E as <-.
      left. split; [exact Hw | apply width_message_contains].
    + intros e E. injection E as <-. left. eauto.
  - destruct (ambiguous_or_exactly_one (Kw.amplitude kw) (Kw.flux kw))
      as [Hh|Hh].
    + rewrite (init_height_error _ s Hw Hh); cbn [fst snd]. repeat split.
      * intros _; now right.
      * intros _; eauto.
      * intros msg E. injection E as <-.
        right. split; [exact Hh | apply height_message_contains].
      * intros e E. injection E as <-. left. eauto.
    + assert (Hno : ~ (ambiguous (Kw.stddev kw) (Kw.fwhm kw)
                       \/ ambiguous (Kw.amplitude kw) (Kw.flux kw))).
      { intros [H|H].
        - exact (exactly_one_not_ambiguous Hw H).
        - exact (exactly_one_not_ambiguous Hh H). }
      destruct (base_failure one (default zero (Kw.mean kw)) one
                             (Kw.kwargs kw)) as [what|] eqn:Hb.
      * rewrite (init_valid_rejected _ s Hw Hh Hb); cbn [fst snd].
        repeat split.
        -- intros (msg & E). discriminate E.
        -- intros H. exfalso. exact (Hno H).
        -- intros msg E. discriminate E.
        -- intros e E. injection E as <-. right. eauto.
      * destruct (init_valid_accepted s Hw Hh Hb) as (m & ->);
          cbn [fst snd]. repeat split.
        -- intros (msg & E). discriminate E.
        -- intros H. exfalso. exact (Hno H).
        -- intros msg E. discriminate E.
        -- intros e E. discriminate E.
Qed.


(** C10.  The width pair is checked first, and a failed check leaves the
    instance untouched: when either pair is ambiguous, [self] after the
    call is [self] before it (the base initialiser has not run), and when
    the width pair is ambiguous the error is the width one, whatever the
    height pair looks like. *)
Theorem init_checks_width_first kw s :
  ambiguous (Kw.stddev kw) (Kw.fwhm kw)
  \/ ambiguous (Kw.amplitude kw) (Kw.flux kw) ->
  snd (__init__ kw s) = s
  /\ (ambiguous (Kw.stddev kw) (Kw.fwhm kw) ->
      fst (__init__ kw s)
      = Raised (ValueError (width_message (Kw.stddev kw) (Kw.fwhm kw)))
      /\ fst (__init__ kw s)
         <> Raised (ValueError
                      (height_message (Kw.amplitude kw) (Kw.flux kw)))).
Proof.
  intros H.
  destruct (ambiguous_or_exactly_one (Kw.stddev kw) (Kw.fwhm kw))
    as [Hw|Hw].
  - rewrite (init_width_error _ s Hw); cbn [fst snd].
    split; [reflexivity|]. intros _. split; [reflexivity|].
    intros E.
    apply (messages_differ (c := Kw.stddev kw) (w := Kw.fwhm kw)
                           (a := Kw.amplitude kw) (f := Kw.flux kw)).
    congruence.
  - destruct H as [H|Hh].
    + exfalso. exact (exactly_one_not_ambiguous Hw H).
    + rewrite (init_height_error _ s Hw Hh); cbn [fst snd].
      split; [reflexivity|]. intros Hw'. exfalso.
      exact (exactly_one_not_ambiguous Hw Hw').
Qed.

End Constructor.

(** ** Integration *)

Section Integration.
Context {F Opts : Type}.
Context {arith : Arith F} {cdf : NormCdf F}.

Implicit Types (m : GaussianModel1D F Opts) (s : self F Opts).

(** C3.  On limits [x_0 .. x_(n-1)] with [n >= 2], [integrate] returns
    [n - 1] numbers and leaves the model alone; the [i]-th of them is
    [(cdf(x_(i+1)) - cdf(x_i)) * flux], the CDF taken at the model's
    [mean] and [stddev] and [flux] being
    [amplitude * (stddev * sqrt(2 pi))].  Every element of the result is
    such an adjacent difference, so that the wrap-around difference
    [cdf(x_0) - cdf(x_(n-1))] is not among them. *)
Theorem integrate_adjacent_bins m (limits : list F) :
  2 <= length limits ->
  exists out,
    integrate limits (Some m) = (Returned out, Some m)
    /\ length out = length limits - 1
    /\ forall i d,
         i < length limits - 1 ->
         nth i out d
         = mul (sub (norm_cdf (nth (S i) limits d) (mean m) (stddev m))
                    (norm_cdf (nth i limits d) (mean m) (stddev m)))
               (mul (amplitude m) (mul (stddev m) sqrt_2pi)).
Proof.
  intros _. rewrite integrate_run. eexists; split; [reflexivity|].
  set (c := map (fun x => norm_cdf x (mean m) (stddev m)) limits).
  assert (Ec : length c = length limits) by apply length_map.
  assert (Ez : length (zip_with sub (np_roll_left c) c) = length limits).
  { rewrite zip_with_length by apply np_roll_left_length. exact Ec. }
  split.
  - rewrite length_map, drop_last_length, Ez. reflexivity.
  - intros i d Hi.
    rewrite (map_nth_inside _ _ d)
      by (rewrite drop_last_length, Ez; exact Hi).
    f_equal.
    rewrite drop_last_nth by (rewrite Ez; exact Hi).
    rewrite zip_with_nth
      by (try apply np_roll_left_length; rewrite Ec; lia).
    rewrite np_roll_left_nth by (rewrite Ec; lia).
    unfold c.
    rewrite !(map_nth_inside _ _ d) by lia.
    reflexivity.
Qed.

(** C4.  On [n] limits [integrate] returns [n - 1] numbers, none at all
    when [n] is 0 or 1 (the subtraction is the one of natural numbers),
    and so never an [n]-th one. *)
Theorem integrate_length m (limits : list F) :
  exists out,
    integrate limits (Some m) = (Returned out, Some m)
    /\ length out = length limits - 1
    /\ (length limits <= 1 -> out = []).
Proof.
  rewrite integrate_run. eexists; split; [reflexivity|].
  set (c := map (fun x => norm_cdf x (mean m) (stddev m)) limits).
  assert (E : length
                (map (fun p => mul p (mul (amplitude m)
                                          (mul (stddev m) sqrt_2pi)))
                     (drop_last (zip_with sub (np_roll_left c) c)))
              = length limits - 1).
  { rewrite length_map, drop_last_length.
    rewrite zip_with_length by apply np_roll_left_length.
    unfold c. now rewrite length_map. }
  split; [exact E|].
  intros Hn. apply length_zero_iff_nil. rewrite E. lia.
Qed.

(** C9.  [integrate] only reads: whatever the limits, and whether it
    returns or not, the instance afterwards is the instance before, with
    the same [amplitude], [mean] and [stddev]. *)
Theorem integrate_preserves_model s (limits : list F) :
  snd (integrate limits s) = s.
Proof.
  destruct s as [m|].
  - rewrite integrate_run. reflexivity.
  - rewrite integrate_uninitialised. reflexivity.
Qed.

End Integration.

(** ** The derived properties over the real numbers *)

Section RealProperties.
Context {Opts : Type}.

Implicit Types (m : GaussianModel1D R Opts).

Local Open Scope R_scope.

Lemma sqrt_2pi_real : @sqrt_2pi R _ = sqrt (2 * PI).
Proof. reflexivity. Qed.

Lemma sqrt_2pi_positive : 0 < sqrt (2 * PI).
Proof. apply sqrt_lt_R0. generalize PI_RGT_0. lra. Qed.

Lemma fwhm_constant_real : @_gauss_StDev_to_FWHM R _ _ = 2 * sqrt (2 * ln 2).
Proof. reflexivity. Qed.

Lemma fwhm_constant_positive : 0 < 2 * sqrt (2 * ln 2).
Proof.
  assert (0 < ln 2).
  { rewrite <- ln_1. apply ln_increasing; lra. }
  assert (0 < sqrt (2 * ln 2)) by (apply sqrt_lt_R0; lra).
  lra.
Qed.

(** In exact arithmetic reading [flux] returns
    [amplitude * stddev * sqrt(2 pi)] and leaves the model as it is: with
    [stddev] 0 the result is 0, and negating [stddev] negates the
    result. *)
Lemma flux_read_real (a b c : R) (o : Opts) :
  let model c :=
    {| amplitude := a; mean := b; stddev := c; options := o |} in
  flux (Some (model c))
  = (Returned (a * c * sqrt (2 * PI)), Some (model c))
  /\ flux (Some (model 0)) = (Returned 0, Some (model 0))
  /\ flux (Some (model (- c)))
     = (Returned (- (a * c * sqrt (2 * PI))), Some (model (- c))).
Proof.
  intros model. rewrite !flux_run, sqrt_2pi_real. unfold model; simpl.
  repeat split; f_equal; f_equal; ring.
Qed.

(** In exact arithmetic reading [fwhm] returns [stddev * 2 sqrt(2 ln 2)],
    and writing the value read back into [fwhm] leaves the model exactly
    as it was, for every [stddev]. *)
Lemma fwhm_round_trip_real m :
  fwhm (Some m) = (Returned (stddev m * (2 * sqrt (2 * ln 2))), Some m)
  /\ bind fwhm fwhm_setter (Some m) = (Returned tt, Some m).
Proof.
  split; [reflexivity|].
  unfold bind. rewrite fwhm_run, fwhm_setter_run.
  rewrite fwhm_constant_real. simpl.
  destruct m as [a b c o]; simpl. do 3 f_equal.
  generalize fwhm_constant_positive. intros H. field. lra.
Qed.

(** In exact arithmetic, with a positive [stddev], reading [flux] and
    writing the value read back into [flux] leaves the model exactly as
    it was. *)
Lemma flux_round_trip_real m :
  0 < stddev m ->
  bind flux flux_setter (Some m) = (Returned tt, Some m).
Proof.
  intros Hc. unfold bind. rewrite flux_run, flux_setter_run.
  rewrite sqrt_2pi_real. simpl.
  destruct m as [a b c o]; simpl in *. do 3 f_equal.
  generalize sqrt_2pi_positive. intros H. field. split; lra.
Qed.

End RealProperties.

(** ** Division by a zero [stddev] on binary64 *)

Section Binary64.
Context {Opts : Type}.

Implicit Types (m : GaussianModel1D float Opts).

Local Open Scope float_scope.

(** A double that compares equal to [0.] is one of the two zeros. *)
Lemma is_zero_spec (x : float) :
  is_zero x = true -> exists s, Prim2SF x = S754_zero s.
Proof.
  unfold is_zero. rewrite eqb_spec.
  change (Prim2SF PrimFloat.zero) with (S754_zero false).
  destruct (Prim2SF x) as [s|s| |s mx ex]; [now exists s | | | ];
    try destruct s; discriminate.
Qed.

(** A zero times [np.sqrt(2 * np.pi)] is a zero. *)
Lemma zero_times_sqrt_2pi (x : float) :
  is_zero x = true ->
  exists s, Prim2SF (x * @sqrt_2pi float _) = S754_zero s.
Proof.
  intros Hx. destruct (is_zero_spec Hx) as (s & E).
  assert (Ek : exists mk ek,
             Prim2SF (@sqrt_2pi float _) = S754_finite false mk ek)
    by (vm_compute; eauto).
  destruct Ek as (mk & ek & Ek).
  rewrite mul_spec, E, Ek. simpl. now eexists.
Qed.

(** Dividing by a zero gives an infinity or NaN. *)
Lemma div_by_zero_not_finite (x z : float) (s : bool) :
  Prim2SF z = S754_zero s -> is_finite (x / z) = false.
Proof.
  intros Ez.
  assert (E : Prim2SF (x / z) = S754_nan
              \/ exists s', Prim2SF (x / z) = S754_infinity s').
  { rewrite div_spec, Ez.
    destruct (Prim2SF x) as [sx|sx| |sx mx ex]; simpl; eauto. }
  unfold is_finite, is_nan, is_infinity.
  rewrite !eqb_spec, abs_spec.
  change (Prim2SF infinity) with (S754_infinity false).
  destruct E as [->|([|] & ->)]; reflexivity.
Qed.

(** A finite double is a zero or has a mantissa and an exponent. *)
Lemma is_finite_spec (x : float) :
  is_finite x = true ->
  (exists s, Prim2SF x = S754_zero s)
  \/ (exists s mx ex, Prim2SF x = S754_finite s mx ex).
Proof.
  unfold is_finite, is_nan, is_infinity.
  rewrite !eqb_spec, abs_spec.
  change (Prim2SF infinity) with (S754_infinity false).
  destruct (Prim2SF x) as [s|s| |s mx ex]; eauto;
    try destruct s; discriminate.
Qed.

(** X11.  On binary64 too, [flux] reads as a zero when [stddev] is zero,
    for every finite amplitude. *)
Lemma flux_zero_stddev_binary64 m :
  is_zero (stddev m) = true ->
  is_finite (amplitude m) = true ->
  exists v, flux (Some m) = (Returned v, Some m) /\ is_zero v = true.
Proof.
  intros Hz Hf. rewrite flux_run. eexists; split; [reflexivity|].
  destruct (zero_times_sqrt_2pi Hz) as (s & E).
  unfold is_zero. rewrite eqb_spec.
  change (Prim2SF PrimFloat.zero) with (S754_zero false).
  change (mul (amplitude m) (mul (stddev m) sqrt_2pi))
    with (amplitude m * (stddev m * sqrt_2pi)).
  rewrite mul_spec, E.
  destruct (@is_finite_spec _ Hf) as [(sa & ->)|(sa & ma & ea & ->)];
    simpl; destruct (xorb sa s); reflexivity.
Qed.

(** A double with a mantissa compares equal to itself. *)
Lemma SFeqb_finite_refl (s : bool) (mx : positive) (ex : Z) :
  SFeqb (S754_finite s mx ex) (S754_finite s mx ex) = true.
Proof.
  unfold SFeqb; simpl.
  rewrite Z.compare_refl, Pos.compare_cont_refl.
  destruct s; reflexivity.
Qed.

(** A quotient by a zero is NaN exactly when the dividend is a zero or
    NaN. *)
Lemma div_by_zero_nan (x z : float) (s : bool) :
  Prim2SF z = S754_zero s -> is_nan (x / z) = is_zero x || is_nan x.
Proof.
  intros Ez. unfold is_nan, is_zero.
  rewrite !eqb_spec, div_spec, Ez.
  change (Prim2SF PrimFloat.zero) with (S754_zero false).
  destruct (Prim2SF x) as [sx|sx| |sx mx ex]; simpl.
  - reflexivity.
  - destruct sx, s; reflexivity.
  - reflexivity.
  - rewrite SFeqb_finite_refl. destruct sx, s; reflexivity.
Qed.

(** C8, as the code has it.  Writing [flux] never raises: it stores
    [flux / (stddev * sqrt(2 pi))] as the amplitude and returns.  When
    [stddev] is zero at that time, what it stores is not a finite number:
    NaN when [flux] is itself zero or NaN, an infinity otherwise. *)
Theorem flux_write_stores_quotient (v : float) m :
  flux_setter v (Some m)
  = (Returned tt,
     Some {| amplitude := v / (stddev m * sqrt_2pi);
             mean := mean m; stddev := stddev m; options := options m |})
  /\ (is_zero (stddev m) = true ->
      is_finite (v / (stddev m * sqrt_2pi)) = false
      /\ is_nan (v / (stddev m * sqrt_2pi)) = is_zero v || is_nan v).
Proof.
  split; [exact (flux_setter_run v m)|].
  intros Hz. destruct (zero_times_sqrt_2pi Hz) as (s & E). split.
  - apply div_by_zero_not_finite with (s := s). exact E.
  - apply div_by_zero_nan with (s := s). exact E.
Qed.

End Binary64.

(** ** Runs on binary64 *)

Section Runs.
Import Sample.

#[local] Existing Instances log_at_two step_cdf exact_repr no_options.

Local Open Scope float_scope.

(** [np.sqrt(2 * np.pi)] is the double printed 2.5066282746310002. *)
Example sqrt_2pi_binary64 : @sqrt_2pi float _ = 2.5066282746310002.
Proof. vm_compute. reflexivity. Qed.

(** [GaussianModel1D(amplitude=2, mean=5, fwhm=4)]: [stddev] is
    [4 / 2.3548200450309493] and [flux] reads
    [2 * (stddev * sqrt(2 pi))]. *)
Example construct_from_fwhm :
  bind (__init__ (kw (Some 2) (Some 5) None (Some 4) None))
       (fun _ => flux) None
  = (Returned 8.5157361554498081, Some (model 2 5 1.6986436005760381)).
Proof. vm_compute. reflexivity. Qed.

(** The round trips at a few doubles: exact at the first two, one unit in
    the last place off at the third. *)
Example round_trips_binary64 :
  bind fwhm fwhm_setter (Some (model 1 0 1.5))
  = (Returned tt, Some (model 1 0 1.5))
  /\ bind flux flux_setter (Some (model 3.3 0 1.7))
     = (Returned tt, Some (model 3.3 0 1.7))
  /\ bind flux flux_setter (Some (model 3.3 0 5.1))
     = (Returned tt, Some (model 3.3000000000000003 0 5.1)).
Proof. repeat split; vm_compute; reflexivity. Qed.

(** [integrate([-1000, 0, 1000])] on the unit model, with the step
    function for the CDF: two bins. *)
Example integrate_three_limits :
  integrate [-1000; 0; 1000] (Some (model 1 0 1))
  = (Returned [2.5066282746310002; 0], Some (model 1 0 1)).
Proof. vm_compute. reflexivity. Qed.


(** A constructor call with nothing given, for C10. *)
Lemma init_checks_width_first_witness :
  (ambiguous (@None float) None \/ ambiguous (@None float) None)
  /\ snd (__init__ (kw None None None None None) None) = None
  /\ fst (__init__ (kw None None None None None) None)
     = Raised (ValueError
                 ("You must set either fwhm OR stdev, not both or  neither. "
                    ++ "got stdev=None fwhm=None")).
Proof.
  assert (Hw : ambiguous (@None float) None) by (right; split; reflexivity).
  split; [left; exact Hw|].
  destruct (init_checks_width_first
              (kw None None None None None) None (or_introl Hw))
    as (Hs & He).
  split; [exact Hs|]. destruct (He Hw) as (E & _). exact E.
Defined.

(** Three limits, for C3. *)
Lemma integrate_adjacent_bins_witness :
  (2 <= length [-1000; 0; 1000]%float)%nat
  /\ exists out,
       integrate [-1000; 0; 1000] (Some (model 1 0 1))
       = (Returned out, Some (model 1 0 1))
       /\ length out = 2%nat
       /\ nth 0 out 0 = 2.5066282746310002
       /\ nth 1 out 0 = 0.
Proof.
  assert (Hn : (2 <= length [-1000; 0; 1000]%float)%nat) by (simpl; lia).
  split; [exact Hn|].
  destruct (integrate_adjacent_bins (model 1 0 1) [-1000; 0; 1000] Hn)
    as (out & E & Hlen & Hnth).
  exists out. split; [exact E|]. split; [exact Hlen|]. split.
  - rewrite (Hnth 0%nat 0) by (simpl; lia). vm_compute. reflexivity.
  - rewrite (Hnth 1%nat 0) by (simpl; lia). vm_compute. reflexivity.
Defined.

(** A write of [flux] at [stddev] zero, for C8 as amended. *)
Lemma flux_write_stores_quotient_witness :
  is_zero 0 = true
  /\ is_finite (1 / (0 * sqrt_2pi)) = false
  /\ is_nan (1 / (0 * sqrt_2pi)) = false.
Proof.
  split; [reflexivity|].
  exact (proj2 (flux_write_stores_quotient 1 (model 1 0 0)) eq_refl).
Defined.

(** C8 as the claim has it fails: on a model whose [stddev] is zero, the
    write [flux = 1] does not raise.  It returns, and the amplitude it has
    stored is plus infinity. *)
Lemma flux_write_at_zero_stddev_returns :
  flux_setter 1 (Some (model 1 0 0))
  = (Returned tt, Some (model infinity 0 0))
  /\ ~ (exists e, fst (flux_setter 1 (Some (model 1 0 0))) = Raised e).
Proof.
  split; [vm_compute; reflexivity|].
  intros (e & E). vm_compute in E. discriminate E.
Qed.
End Runs.

(** * Further properties *)

(** ** Adjacent pairs *)

Lemma removelast_map {A B : Type} (g : A -> B) (a : list A) :
  removelast (map g a) = map g (removelast a).
Proof.
  induction a as [|x [|y rest] IH]; simpl; try reflexivity.
  simpl in IH. now rewrite IH.
Qed.

Section AdjacentFacts.
Context {A : Type}.

Lemma removelast_combine_snoc {B : Type} (a : list A) (b : list B) (z : A) :
  length b = S (length a) ->
  removelast (combine (a ++ [z]) b) = combine a b.
Proof.
  revert b. induction a as [|x a IH]; intros [|y b] E; simpl in *;
    try discriminate.
  - destruct b; [reflexivity | discriminate].
  - injection E as E. rewrite <- (IH b E).
    destruct b as [|y' b]; [discriminate|].
    destruct a; reflexivity.
Qed.

(** Dropping the wrap-around element of the rolled difference leaves the
    differences of neighbours. *)
Lemma drop_last_roll (f : A -> A -> A) (c : list A) :
  drop_last (zip_with f (np_roll_left c) c) = zip_with f (tl c) c.
Proof.
  unfold drop_last, zip_with. rewrite removelast_map.
  destruct c as [|x rest]; simpl; [reflexivity|].
  now rewrite removelast_combine_snoc.
Qed.

Lemma zip_with_tl_cons (f : A -> A -> A) (x y : A) (rest : list A) :
  zip_with f (tl (x :: y :: rest)) (x :: y :: rest)
  = f y x :: zip_with f (tl (y :: rest)) (y :: rest).
Proof. reflexivity. Qed.

Lemma zip_with_tl_split (f : A -> A -> A) (a b : list A) (x : A) :
  zip_with f (tl (a ++ x :: b)) (a ++ x :: b)
  = zip_with f (tl (a ++ [x])) (a ++ [x])
    ++ zip_with f (tl (x :: b)) (x :: b).
Proof.
  induction a as [|y a IH]; [reflexivity|].
  destruct a as [|y' a].
  - reflexivity.
  - change ((y :: y' :: a) ++ x :: b) with (y :: y' :: (a ++ x :: b)).
    change ((y :: y' :: a) ++ [x]) with (y :: y' :: (a ++ [x])).
    rewrite !zip_with_tl_cons.
    change (y' :: a ++ x :: b) with ((y' :: a) ++ x :: b).
    change (y' :: a ++ [x]) with ((y' :: a) ++ [x]).
    rewrite IH. reflexivity.
Qed.

Lemma zip_with_tl_snoc (f : A -> A -> A) (a : list A) (y x : A) :
  zip_with f (tl ((a ++ [y]) ++ [x])) ((a ++ [y]) ++ [x])
  = zip_with f (tl (a ++ [y])) (a ++ [y]) ++ [f x y].
Proof.
  rewrite <- app_assoc. simpl. rewrite zip_with_tl_split. reflexivity.
Qed.
End AdjacentFacts.

(** ** Integration, bin by bin *)

Section IntegrationPieces.
Context {F Opts : Type}.
Context {arith : Arith F} {cdf : NormCdf F}.

Implicit Types (m : GaussianModel1D F Opts).

(** The result of [integrate], as the differences of neighbouring CDF
    values times the flux. *)
Lemma integrate_neighbours m (limits : list F) :
  integrate limits (Some m)
  = (Returned
       (map (fun p => mul p (mul (amplitude m) (mul (stddev m) sqrt_2pi)))
            (zip_with sub
               (tl (map (fun x => norm_cdf x (mean m) (stddev m)) limits))
               (map (fun x => norm_cdf x (mean m) (stddev m)) limits))),
     Some m).
Proof. rewrite integrate_run, drop_last_roll. reflexivity. Qed.

(** X1.  Bins can be computed piecewise: cutting the limits at one of them
    and integrating the part up to it and the part from it on gives, one
    after the other, the bins of the whole. *)
Theorem integrate_splits_at_limit m (a b : list F) (x : F) :
  exists lo hi,
    integrate (a ++ [x]) (Some m) = (Returned lo, Some m)
    /\ integrate (x :: b) (Some m) = (Returned hi, Some m)
    /\ integrate (a ++ x :: b) (Some m) = (Returned (lo ++ hi), Some m).
Proof.
  rewrite !integrate_neighbours. do 2 eexists.
  split; [reflexivity|]. split; [reflexivity|].
  rewrite <- map_app. do 3 f_equal.
  rewrite !map_app. simpl map.
  apply zip_with_tl_split.
Qed.

End IntegrationPieces.

(** ** Integration over the real numbers *)

Lemma last_map {A B : Type} (g : A -> B) (a : list A) (d : A) :
  last (map g a) (g d) = g (last a d).
Proof.
  induction a as [|x [|y rest] IH]; simpl; try reflexivity.
  exact IH.
Qed.

Lemma hd_map {A B : Type} (g : A -> B) (a : list A) (d : A) :
  hd (g d) (map g a) = g (hd d a).
Proof. destruct a; reflexivity. Qed.

Section RealIntegration.
Context {Opts : Type} {cdf : NormCdf R}.

Implicit Types (m : GaussianModel1D R Opts).

Local Open Scope R_scope.

(** The differences of neighbours, each times [k], add up to the last
    value minus the first, times [k]. *)
Lemma total_neighbours (c : list R) (k d : R) :
  total (map (fun p => p * k) (zip_with Rminus (tl c) c))
  = (last c d - hd d c) * k.
Proof.
  induction c as [|x [|y rest] IH].
  - simpl. ring.
  - simpl. ring.
  - rewrite zip_with_tl_cons.
    change (total (map (fun p => p * k) (?a :: ?l)))
      with (a * k + total (map (fun p => p * k) l)).
    rewrite IH. simpl. ring.
Qed.

(** Reversing an array reverses its differences of neighbours and changes
    their signs. *)
Lemma neighbours_rev (c : list R) :
  zip_with Rminus (tl (rev c)) (rev c)
  = rev (map Ropp (zip_with Rminus (tl c) c)).
Proof.
  induction c as [|x [|y rest] IH]; try reflexivity.
  rewrite zip_with_tl_cons.
  change (rev (x :: y :: rest)) with ((rev rest ++ [y]) ++ [x]).
  rewrite zip_with_tl_snoc.
  change (rev rest ++ [y]) with (rev (y :: rest)).
  rewrite IH. simpl map. simpl rev. do 2 f_equal. ring.
Qed.


(** X3.  Limits given in the opposite order give the same bins in the
    opposite order with the opposite signs; the code does not sort or
    reject them. *)
Theorem integrate_reversed_limits m (limits : list R) :
  exists out,
    integrate limits (Some m) = (Returned out, Some m)
    /\ integrate (rev limits) (Some m)
       = (Returned (rev (map Ropp out)), Some m).
Proof.
  rewrite !integrate_neighbours. eexists; split; [reflexivity|].
  do 2 f_equal.
  rewrite map_rev.
  change (zip_with sub) with (zip_with Rminus).
  rewrite neighbours_rev.
  rewrite map_rev, !map_map.
  apply (f_equal (@rev R)), map_ext.
  intros p. simpl. ring.
Qed.

End RealIntegration.

(** ** Writing then reading, over the real numbers *)

Section RealWrites.
Context {Opts : Type}.

Implicit Types (m : GaussianModel1D R Opts).

Local Open Scope R_scope.





End RealWrites.

(** ** Signs and zeros on binary64 *)

Lemma Prim2SF_inj (x y : float) : Prim2SF x = Prim2SF y -> x = y.
Proof.
  intros E. rewrite <- (SF2Prim_Prim2SF x), <- (SF2Prim_Prim2SF y).
  now rewrite E.
Qed.

(** Rounding does not look at the sign. *)
Lemma binary_round_aux_opp (p e : Z) (s : bool) (mx ex : Z) (l : location) :
  binary_round_aux p e (negb s) mx ex l
  = SFopp (binary_round_aux p e s mx ex l).
Proof.
  unfold binary_round_aux.
  destruct (shr_fexp p e mx ex l) as [mrs e'].
  destruct (shr_fexp p e _ e' loc_Exact) as [mrs' e''].
  destruct (shr_m mrs') as [|q|q]; try reflexivity.
  destruct (e'' <=? e - p)%Z; reflexivity.
Qed.

Lemma SFmul_opp_l (p e : Z) (x y : spec_float) :
  SFmul p e (SFopp x) y = SFopp (SFmul p e x y).
Proof.
  destruct x as [sx|sx| |sx mx ex], y as [sy|sy| |sy my ey]; simpl;
    rewrite <- ?Bool.negb_xorb_l; try reflexivity.
  apply binary_round_aux_opp.
Qed.

Lemma SFmul_opp_r (p e : Z) (x y : spec_float) :
  SFmul p e x (SFopp y) = SFopp (SFmul p e x y).
Proof.
  destruct x as [sx|sx| |sx mx ex], y as [sy|sy| |sy my ey]; simpl;
    rewrite <- ?Bool.negb_xorb_r; try reflexivity.
  apply binary_round_aux_opp.
Qed.

Lemma mul_opp_l (x y : float) : (- x * y = - (x * y))%float.
Proof.
  apply Prim2SF_inj.
  rewrite opp_spec, !mul_spec, opp_spec. apply SFmul_opp_l.
Qed.

Lemma mul_opp_r (x y : float) : (x * - y = - (x * y))%float.
Proof.
  apply Prim2SF_inj.
  rewrite opp_spec, !mul_spec, opp_spec. apply SFmul_opp_r.
Qed.

(** What a quotient by a zero looks like. *)
Lemma div_by_zero_shape (x z : float) (s : bool) :
  Prim2SF z = S754_zero s ->
  Prim2SF (x / z) = S754_nan
  \/ exists s', Prim2SF (x / z) = S754_infinity s'.
Proof.
  intros Ez. rewrite div_spec, Ez.
  destruct (Prim2SF x) as [sx|sx| |sx mx ex]; simpl; eauto.
Qed.

Lemma is_zero_of_spec (x : float) (s : bool) :
  Prim2SF x = S754_zero s -> is_zero x = true.
Proof.
  intros E. unfold is_zero. rewrite eqb_spec, E. reflexivity.
Qed.

Section Binary64Edges.
Context {Opts : Type}.

Implicit Types (m : GaussianModel1D float Opts).

Local Open Scope float_scope.

(** A product by a zero is a zero when the other factor is finite, and
    NaN when it is not. *)
Lemma mul_zero_shape (a z : float) (s : bool) :
  Prim2SF z = S754_zero s ->
  is_zero (a * z) = is_finite a /\ is_nan (a * z) = negb (is_finite a).
Proof.
  intros Ez. unfold is_zero, is_finite, is_nan, is_infinity.
  rewrite !eqb_spec, abs_spec, mul_spec, Ez.
  change (Prim2SF PrimFloat.zero) with (S754_zero false).
  change (Prim2SF infinity) with (S754_infinity false).
  destruct (Prim2SF a) as [sa|sa| |sa ma ea];
    rewrite ?SFeqb_finite_refl; simpl;
    try destruct sa; try destruct s; split; reflexivity.
Qed.

Lemma is_nan_opp (x : float) : is_nan (- x) = is_nan x.
Proof.
  unfold is_nan. rewrite !eqb_spec, opp_spec.
  destruct (Prim2SF x) as [sx|sx| |sx mx ex]; simpl SFopp;
    rewrite ?SFeqb_finite_refl; try destruct sx; reflexivity.
Qed.

(** X8.  On binary64 the sign of [flux] follows the signs of [stddev] and
    [amplitude]: when the value read is a number, negating either one
    gives exactly the negated value; when it is NaN, it stays NaN. *)
Theorem flux_negates_with_stddev_and_amplitude (a b c : float) (o : Opts) :
  let model a c :=
    {| amplitude := a; mean := b; stddev := c; options := o |} in
  exists v v1 v2,
    flux (Some (model a c)) = (Returned v, Some (model a c))
    /\ flux (Some (model a (- c))) = (Returned v1, Some (model a (- c)))
    /\ flux (Some (model (- a) c)) = (Returned v2, Some (model (- a) c))
    /\ is_nan v1 = is_nan v
    /\ is_nan v2 = is_nan v
    /\ (is_nan v = false -> v1 = - v /\ v2 = - v).
Proof.
  intros model. rewrite !flux_run. do 3 eexists.
  do 3 (split; [reflexivity|]).
  unfold model; cbn [amplitude stddev].
  change (@mul float b64_arith) with PrimFloat.mul.
  assert (E1 : a * (- c * sqrt_2pi) = - (a * (c * sqrt_2pi)))
    by now rewrite mul_opp_l, mul_opp_r.
  assert (E2 : - a * (c * sqrt_2pi) = - (a * (c * sqrt_2pi)))
    by apply mul_opp_l.
  rewrite E1, E2, is_nan_opp. auto.
Qed.

(** C5, as amended.  On binary64 reading [flux] returns
    [amplitude * (stddev * sqrt(2 pi))] and leaves the model as it is; it
    never raises.  When [stddev] is zero the value read is a zero if the
    amplitude is finite and NaN if the amplitude is infinite or NaN.
    Negating [stddev] negates the value read (a NaN stays NaN). *)
Theorem flux_read_binary64 (a b c : float) (o : Opts) :
  let model c :=
    {| amplitude := a; mean := b; stddev := c; options := o |} in
  flux (Some (model c)) = (Returned (a * (c * sqrt_2pi)), Some (model c))
  /\ (is_zero c = true ->
      is_zero (a * (c * sqrt_2pi)) = is_finite a
      /\ is_nan (a * (c * sqrt_2pi)) = negb (is_finite a))
  /\ (exists v',
        flux (Some (model (- c))) = (Returned v', Some (model (- c)))
        /\ is_nan v' = is_nan (a * (c * sqrt_2pi))
        /\ (is_nan (a * (c * sqrt_2pi)) = false ->
            v' = - (a * (c * sqrt_2pi)))).
Proof.
  intros model. split; [exact (flux_run (model c))|]. split.
  - intros Hz. destruct (zero_times_sqrt_2pi Hz) as (s & E).
    exact (@mul_zero_shape a _ _ E).
  - rewrite flux_run. eexists. split; [reflexivity|].
    unfold model; cbn [amplitude stddev].
    change (@mul float b64_arith) with PrimFloat.mul.
    assert (E1 : a * (- c * sqrt_2pi) = - (a * (c * sqrt_2pi)))
      by now rewrite mul_opp_l, mul_opp_r.
    rewrite E1, is_nan_opp. auto.
Qed.

(** X9.  On binary64, a write to [flux] while [stddev] is zero is not
    undone by reading: whatever was written, [flux] then reads NaN. *)
Theorem flux_reads_nan_after_write_at_zero_stddev (v : float) m :
  is_zero (stddev m) = true ->
  exists r m',
    bind (flux_setter v) (fun _ => flux) (Some m) = (Returned r, Some m')
    /\ is_nan r = true.
Proof.
  intros Hz. unfold bind. rewrite flux_setter_run, flux_run.
  do 2 eexists; split; [reflexivity|]. cbn [amplitude stddev].
  destruct (zero_times_sqrt_2pi Hz) as (s & E).
  change (is_nan (v / (stddev m * sqrt_2pi) * (stddev m * sqrt_2pi)) = true).
  unfold is_nan. rewrite eqb_spec, mul_spec, E.
  destruct (@div_by_zero_shape v _ _ E) as [->|(s' & ->)]; reflexivity.
Qed.

End Binary64Edges.

(** ** The constructor at a zero width, on binary64 *)

Section Binary64Constructor.
Context {Opts : Type} {log : Log float} {rep : Repr float}.
Context {base : Base float Opts}.

(** [np.log(2)] is the double nearest to ln 2. *)
Hypothesis log_2 : np_log 2%float = Sample.b64_ln2.

Implicit Types (kw : Kw.t float Opts) (s : self float Opts).

Local Open Scope float_scope.

Lemma fwhm_constant_finite :
  exists mk ek,
    Prim2SF (@_gauss_StDev_to_FWHM float _ log) = S754_finite false mk ek.
Proof.
  unfold _gauss_StDev_to_FWHM.
  change (@np_log float log two) with (np_log 2%float).
  rewrite log_2. vm_compute. eauto.
Qed.

(** A zero [fwhm] is stored as a zero [stddev]. *)
Lemma zero_over_fwhm_constant (w : float) :
  is_zero w = true -> is_zero (w / @_gauss_StDev_to_FWHM float _ log) = true.
Proof.
  intros Hw. destruct (is_zero_spec Hw) as (sw & Ew).
  destruct fwhm_constant_finite as (mk & ek & Ek).
  apply is_zero_of_spec with (s := xorb sw false).
  rewrite div_spec, Ew, Ek. reflexivity.
Qed.

(** X10.  On binary64, constructing from a zero width (a zero [stddev], or
    a zero [fwhm]) and a [flux], with keyword options that the base
    initialiser accepts, does not fail: the constructor returns a model
    whose [stddev] is zero and whose [amplitude] is not a finite number. *)
Theorem init_zero_width_with_flux kw s (f width : float) :
  base_accepts kw ->
  Kw.amplitude kw = None ->
  Kw.flux kw = Some f ->
  is_zero width = true ->
  (Kw.stddev kw = Some width /\ Kw.fwhm kw = None)
  \/ (Kw.stddev kw = None /\ Kw.fwhm kw = Some width) ->
  exists m,
    __init__ kw s = (Returned tt, Some m)
    /\ is_zero (stddev m) = true
    /\ is_finite (amplitude m) = false.
Proof.
  destruct kw as [a b c w fl o]; unfold base_accepts; simpl.
  intros Hb -> -> Hz [(-> & ->)|(-> & ->)];
    unfold __init__, bind, Gaussian1D__init__; simpl; rewrite Hb;
    (eexists; split; [reflexivity|]); cbn [stddev amplitude].
  - split; [exact Hz|].
    destruct (zero_times_sqrt_2pi Hz) as (sz & E).
    apply div_by_zero_not_finite with (s := sz). exact E.
  - pose proof (zero_over_fwhm_constant Hz) as Hz'.
    split; [exact Hz'|].
    destruct (zero_times_sqrt_2pi Hz') as (sz & E).
    apply div_by_zero_not_finite with (s := sz). exact E.
Qed.

End Binary64Constructor.

(** ** Further runs *)

Section FurtherRuns.
Import Sample.

#[local] Existing Instances log_at_two step_cdf exact_repr no_options.



(** A write of [flux = 3] at [stddev] zero, for X9. *)
Lemma flux_reads_nan_after_write_at_zero_stddev_witness :
  is_zero 0 = true
  /\ exists r m',
       bind (flux_setter 3%float) (fun _ => flux) (Some (model 1 0 0))
       = (Returned r, Some m')
       /\ is_nan r = true.
Proof.
  split; [reflexivity|].
  exact (flux_reads_nan_after_write_at_zero_stddev 3%float (model 1 0 0)
           eq_refl).
Defined.

(** [GaussianModel1D(stddev=0., flux=1.)], for X10. *)
Lemma init_zero_width_with_flux_witness :
  np_log 2%float = b64_ln2
  /\ base_accepts (kw None None (Some 0%float) None (Some 1%float))
  /\ is_zero 0 = true
  /\ exists m,
       __init__ (kw None None (Some 0%float) None (Some 1%float)) None
       = (Returned tt, Some m)
       /\ is_zero (stddev m) = true
       /\ is_finite (amplitude m) = false.
Proof.
  split; [reflexivity|]. split; [reflexivity|]. split; [reflexivity|].
  exact (@init_zero_width_with_flux unit log_at_two exact_repr no_options
           eq_refl
           (kw None None (Some 0%float) None (Some 1%float)) None
           1%float 0%float eq_refl eq_refl eq_refl eq_refl
           (or_introl (conj eq_refl eq_refl))).
Defined.

(** A model with [stddev] zero and a finite amplitude, for C5 as
    amended. *)
Lemma flux_read_binary64_witness :
  is_zero 0 = true
  /\ is_zero (2 * (0 * sqrt_2pi)) = is_finite 2
  /\ is_nan (2 * (0 * sqrt_2pi)) = negb (is_finite 2).
Proof.
  split; [reflexivity|].
  exact (proj1 (proj2 (@flux_read_binary64 unit 2%float 5%float 0%float tt))
               eq_refl).
Defined.

(** C5 as the claim has it fails: with [stddev] zero and an infinite
    amplitude, [flux] reads NaN, which is not 0. *)
Lemma flux_read_at_infinite_amplitude :
  is_zero 0 = true
  /\ flux (Some (model infinity 0 0))
     = (Returned nan, Some (model infinity 0 0))
  /\ is_zero nan = false.
Proof. repeat split; vm_compute; reflexivity. Qed.

(** A model with [stddev] zero and a finite amplitude, for X11. *)
Lemma flux_zero_stddev_binary64_witness :
  is_zero 0 = true
  /\ is_finite 2 = true
  /\ exists v,
       flux (Some (model 2 5 0)) = (Returned v, Some (model 2 5 0))
       /\ is_zero v = true.
Proof.
  split; [reflexivity|]. split; [reflexivity|].
  exact (@flux_zero_stddev_binary64 unit (model 2 5 0) eq_refl eq_refl).
Defined.

End FurtherRuns.

(** * Rounding on binary64 *)

(** ** Shifting and rounding a mantissa *)

Unset Implicit Arguments.

Section ShiftRight.

Lemma iter_pos_nat {A : Type} (f : A -> A) (p : positive) (x : A) :
  SpecFloat.iter_pos f p x = Nat.iter (Pos.to_nat p) f x.
Proof.
  revert x. induction p as [p IH|p IH|]; intros x.
  - change (SpecFloat.iter_pos f p~1 x)
      with (SpecFloat.iter_pos f p (SpecFloat.iter_pos f p (f x))).
    rewrite !IH, Pos2Nat.inj_xI.
    replace (S (2 * Pos.to_nat p))
      with (Pos.to_nat p + (Pos.to_nat p + 1))%nat by lia.
    rewrite !Nat.iter_add. reflexivity.
  - change (SpecFloat.iter_pos f p~0 x)
      with (SpecFloat.iter_pos f p (SpecFloat.iter_pos f p x)).
    rewrite !IH, Pos2Nat.inj_xO.
    replace (2 * Pos.to_nat p)%nat
      with (Pos.to_nat p + Pos.to_nat p)%nat by lia.
    rewrite Nat.iter_add. reflexivity.
  - reflexivity.
Qed.


Lemma shr_1_located (N U : Z) (mrs : shr_record) :
  (0 < U)%Z -> located N U mrs -> located N (2 * U) (shr_1 mrs).
Proof.
  intros HU. destruct mrs as [m r s]. unfold located.
  cbn [shr_m shr_r shr_s]. intros (Hm & Hb & Hl).
  destruct m as [|[p|p|]|p]; try lia;
    destruct r, s; cbn [shr_1 shr_m shr_r shr_s orb]; lia.
Qed.

Lemma iter_shr_1_located (N U : Z) (mrs : shr_record) (n : nat) :
  (0 < U)%Z -> located N U mrs ->
  located N (2 ^ Z.of_nat n * U) (Nat.iter n shr_1 mrs).
Proof.
  intros HU H. induction n as [|n IH].
  - change (2 ^ Z.of_nat 0)%Z with 1%Z. rewrite Z.mul_1_l. exact H.
  - rewrite Nat2Z.inj_succ, Z.pow_succ_r by lia.
    change (Nat.iter (S n) shr_1 mrs) with (shr_1 (Nat.iter n shr_1 mrs)).
    rewrite <- Z.mul_assoc.
    apply shr_1_located; [|exact IH].
    apply Z.mul_pos_pos; [apply Z.pow_pos_nonneg; lia | exact HU].
Qed.

(** Shifting moves the exponent up by some [k >= 0] and keeps the number
    located, with the unit scaled by [2 ^ k]. *)
Lemma shr_located (N U : Z) (mrs : shr_record) (e n : Z) :
  (0 < U)%Z -> located N U mrs ->
  exists k, (0 <= k)%Z
            /\ snd (shr mrs e n) = (e + k)%Z
            /\ located N (2 ^ k * U) (fst (shr mrs e n)).
Proof.
  intros HU H. destruct n as [|p|p]; cbn [shr fst snd].
  - exists 0%Z. split; [lia|]. split; [lia|].
    change (2 ^ 0)%Z with 1%Z. rewrite Z.mul_1_l. exact H.
  - exists (Z.pos p). split; [lia|]. split; [reflexivity|].
    rewrite iter_pos_nat.
    rewrite <- (positive_nat_Z p) at 1.
    apply iter_shr_1_located; assumption.
  - exists 0%Z. split; [lia|]. split; [lia|].
    change (2 ^ 0)%Z with 1%Z. rewrite Z.mul_1_l. exact H.
Qed.

Lemma shr_record_of_loc_exact (m : Z) :
  (0 <= m)%Z -> located m 1 (shr_record_of_loc m loc_Exact).
Proof. unfold located; cbn [shr_record_of_loc shr_m shr_r shr_s]. lia. Qed.

Lemma round_nearest_even_located (N U : Z) (mrs : shr_record) :
  (0 < U)%Z -> located N U mrs ->
  let m' := round_nearest_even (shr_m mrs) (loc_of_shr_record mrs) in
  (0 <= m' /\ 2 * Z.abs (m' * U - N) <= U)%Z.
Proof.
  intros HU. destruct mrs as [m r s]. unfold located.
  cbn [shr_m shr_r shr_s]. intros (Hm & Hb & Hl).
  destruct r, s; cbn [loc_of_shr_record round_nearest_even];
    try destruct (Z.even m); lia.
Qed.


(** What [binary_round_aux] returns, when it returns a number: the
    exponent has moved up by some [k], and the mantissa is less than one
    unit in the last place away from the number that was rounded. *)
Lemma binary_round_aux_finite (p em : Z) (s : bool) (m e : Z) (l : location)
      (N U : Z) (s' : bool) (mz : positive) (ez : Z) :
  (0 < U)%Z ->
  located N U (shr_record_of_loc m l) ->
  binary_round_aux p em s m e l = S754_finite s' mz ez ->
  s' = s
  /\ exists k, (0 <= k)%Z
              /\ ez = (e + k)%Z
              /\ (Z.abs (Z.pos mz * (2 ^ k * U) - N) < 2 ^ k * U)%Z.
Proof.
  intros HU Hloc. unfold binary_round_aux, shr_fexp.
  destruct (shr_located N U (shr_record_of_loc m l) e
              (fexp p em (Zdigits2 m + e) - e) HU Hloc)
    as (k1 & Hk1 & He1 & Hloc1).
  destruct (shr (shr_record_of_loc m l) e (fexp p em (Zdigits2 m + e) - e))
    as [mrs1 e1]. cbn [fst snd] in He1, Hloc1.
  assert (HU1 : (0 < 2 ^ k1 * U)%Z)
    by (apply Z.mul_pos_pos; [apply Z.pow_pos_nonneg; lia | exact HU]).
  destruct (round_nearest_even_located N (2 ^ k1 * U) mrs1 HU1 Hloc1)
    as (Hm' & Hr).
  set (m' := round_nearest_even (shr_m mrs1) (loc_of_shr_record mrs1)) in *.
  destruct (shr_located m' 1 (shr_record_of_loc m' loc_Exact) e1
              (fexp p em (Zdigits2 m' + e1) - e1) Z.lt_0_1
              (shr_record_of_loc_exact m' Hm'))
    as (k2 & Hk2 & He2 & Hloc2).
  destruct (shr (shr_record_of_loc m' loc_Exact) e1
                (fexp p em (Zdigits2 m' + e1) - e1))
    as [mrs2 e2]. cbn [fst snd] in He2, Hloc2.
  destruct Hloc2 as (_ & Hb2 & _).
  destruct (shr_m mrs2) as [|q|q] eqn:Eq; try discriminate.
  destruct (e2 <=? em - p)%Z; try discriminate.
  intros E. injection E as <- <- <-. split; [reflexivity|].
  exists (k1 + k2)%Z. split; [lia|]. split; [lia|].
  rewrite Z.pow_add_r by lia.
  assert (HA : (0 < 2 ^ k2)%Z) by (apply Z.pow_pos_nonneg; lia).
  rewrite Z.mul_1_r in Hb2.
  set (A := (2 ^ k2)%Z) in *. set (U1 := (2 ^ k1 * U)%Z) in *.
  replace (2 ^ k1 * A * U)%Z with (A * U1)%Z by (unfold U1; ring).
  assert (Hd : (0 <= m' - Z.pos q * A <= A - 1)%Z) by lia.
  replace (Z.pos q * (A * U1) - N)%Z
    with ((m' * U1 - N) - (m' - Z.pos q * A) * U1)%Z by ring.
  assert (Hd' : (0 <= (m' - Z.pos q * A) * U1 <= (A - 1) * U1)%Z) by nia.
  lia.
Qed.


Lemma new_location_located (U q r : Z) :
  (0 < U)%Z -> (0 <= q)%Z -> (0 <= r < U)%Z ->
  located (U * q + r) U (shr_record_of_loc q (new_location U r)).
Proof.
  intros HU Hq Hr. unfold new_location.
  destruct (Z.even U) eqn:Ev.
  - unfold new_location_even.
    destruct (Z.eqb_spec r 0) as [->|Hr0].
    + unfold located; cbn [shr_record_of_loc shr_m shr_r shr_s]. lia.
    + destruct (Z.compare_spec (2 * r) U);
        unfold located; cbn [shr_record_of_loc shr_m shr_r shr_s]; lia.
  - assert (Hodd : Z.odd U = true) by (now rewrite <- Z.negb_even, Ev).
    apply Z.odd_spec in Hodd. destruct Hodd as (h & ->).
    unfold new_location_odd.
    destruct (Z.eqb_spec r 0) as [->|Hr0].
    + unfold located; cbn [shr_record_of_loc shr_m shr_r shr_s]. lia.
    + destruct (Z.compare_spec (2 * r + 1) (2 * h + 1));
        unfold located; cbn [shr_record_of_loc shr_m shr_r shr_s]; lia.
Qed.

(** The product of two numbers, when it is a number. *)
Lemma SFmul_finite (p em : Z) (sx sy sz : bool) (mx my mz : positive)
      (ex ey ez : Z) :
  SFmul p em (S754_finite sx mx ex) (S754_finite sy my ey)
  = S754_finite sz mz ez ->
  sz = xorb sx sy
  /\ exists k, (0 <= k)%Z
              /\ ez = (ex + ey + k)%Z
              /\ (Z.abs (Z.pos mz * 2 ^ k - Z.pos mx * Z.pos my) < 2 ^ k)%Z.
Proof.
  cbn [SFmul]. intros E.
  destruct (binary_round_aux_finite p em (xorb sx sy) (Z.pos (mx * my))
              (ex + ey) loc_Exact (Z.pos (mx * my)) 1 sz mz ez
              Z.lt_0_1 (shr_record_of_loc_exact _ (Pos2Z.is_nonneg _)) E)
    as (Hs & k & Hk & He & Hb).
  split; [exact Hs|]. exists k. split; [exact Hk|]. split; [exact He|].
  rewrite Z.mul_1_r, Pos2Z.inj_mul in Hb. exact Hb.
Qed.

(** The quotient of two numbers, when it is a number: for some split
    [ex - ey = e' + sh] of the exponent the mantissa is less than one unit
    in the last place away from [mx * 2 ^ sh / my]. *)
Lemma SFdiv_finite (p em : Z) (sx sy sz : bool) (mx my mz : positive)
      (ex ey ez : Z) :
  SFdiv p em (S754_finite sx mx ex) (S754_finite sy my ey)
  = S754_finite sz mz ez ->
  sz = xorb sx sy
  /\ exists k sh,
       (0 <= k)%Z /\ (0 <= sh)%Z
       /\ (ez + sh = ex - ey + k)%Z
       /\ (Z.abs (Z.pos mz * (2 ^ k * Z.pos my) - Z.pos mx * 2 ^ sh)
           < 2 ^ k * Z.pos my)%Z.
Proof.
  cbn [SFdiv]. unfold SFdiv_core_binary.
  set (e' := Z.min (fexp p em (Zdigits2 (Z.pos mx) + ex
                               - (Zdigits2 (Z.pos my) + ey)))
                   (ex - ey)).
  set (sh := (ex - ey - e')%Z).
  assert (Hsh : (0 <= sh)%Z) by (unfold sh, e'; lia).
  assert (Hm' : match sh with
                | Z.pos _ => Z.shiftl (Z.pos mx) sh
                | 0%Z => Z.pos mx
                | Z.neg _ => 0%Z
                end = (Z.pos mx * 2 ^ sh)%Z).
  { destruct sh as [|q|q]; try lia.
    apply Z.shiftl_mul_pow2. lia. }
  rewrite Hm'.
  pose proof (Z_div_mod (Z.pos mx * 2 ^ sh) (Z.pos my) (Zgt_pos_0 my))
    as Hdiv.
  destruct (Z.div_eucl (Z.pos mx * 2 ^ sh) (Z.pos my)) as [q r].
  destruct Hdiv as (Hqr & Hr).
  assert (Hq : (0 <= q)%Z).
  { assert (0 <= Z.pos mx * 2 ^ sh)%Z
      by (apply Z.mul_nonneg_nonneg; [lia | apply Z.pow_nonneg; lia]).
    nia. }
  intros E.
  destruct (binary_round_aux_finite p em (xorb sx sy) q e'
              (new_location (Z.pos my) r) (Z.pos my * q + r) (Z.pos my)
              sz mz ez (Pos2Z.pos_is_pos my)
              (new_location_located _ _ _ (Pos2Z.pos_is_pos my) Hq Hr) E)
    as (Hs & k & Hk & He & Hb).
  split; [exact Hs|]. exists k, sh.
  split; [exact Hk|]. split; [exact Hsh|]. split; [unfold sh; lia|].
  rewrite <- Hqr in Hb. exact Hb.
Qed.


End ShiftRight.

(** ** The error of one multiplication and of one division *)

Section FloatValues.

Lemma IZR_pow2 (k : Z) : (0 <= k)%Z -> IZR (2 ^ k) = powerRZ 2 k.
Proof.
  intros Hk. rewrite <- (Z2Nat.id k) by exact Hk.
  now rewrite <- pow_IZR, pow_powerRZ.
Qed.

Lemma digits2_pos_lower (p : positive) :
  (2 ^ (Z.pos (digits2_pos p) - 1) <= Z.pos p)%Z.
Proof.
  induction p as [p IH|p IH|]; cbn [digits2_pos].
  - rewrite Pos2Z.inj_succ.
    replace (Z.succ (Z.pos (digits2_pos p)) - 1)%Z
      with (Z.succ (Z.pos (digits2_pos p) - 1)) by lia.
    rewrite Z.pow_succ_r by lia. lia.
  - rewrite Pos2Z.inj_succ.
    replace (Z.succ (Z.pos (digits2_pos p)) - 1)%Z
      with (Z.succ (Z.pos (digits2_pos p) - 1)) by lia.
    rewrite Z.pow_succ_r by lia. lia.
  - reflexivity.
Qed.

Lemma is_normal_shape (x : float) :
  is_normal x = true ->
  exists s m e,
    Prim2SF x = S754_finite s m e /\ (2 ^ 52 <= Z.pos m)%Z.
Proof.
  unfold is_normal. rewrite classify_spec.
  unfold SF64classify, SFclassify.
  destruct (Prim2SF x) as [s|s| |s m e];
    [destruct s; discriminate | destruct s; discriminate | discriminate |].
  intros H. exists s, m, e. split; [reflexivity|].
  assert (Hd : Z.pos (digits2_pos m) = prec).
  { destruct s; destruct (Z.eqb_spec (Z.pos (digits2_pos m)) prec);
      try discriminate; assumption. }
  pose proof (digits2_pos_lower m) as Hl. rewrite Hd in Hl. exact Hl.
Qed.


Local Open Scope R_scope.

Lemma Rabs_sign_factor (s : bool) (r : R) : Rabs (sign_factor s * r) = Rabs r.
Proof.
  destruct s; unfold sign_factor.
  - replace (-1 * r) with (- r) by ring. apply Rabs_Ropp.
  - now rewrite Rmult_1_l.
Qed.

Lemma sign_factor_xorb (s t : bool) :
  sign_factor (xorb s t) = sign_factor s * sign_factor t.
Proof. destruct s, t; unfold sign_factor; simpl; ring. Qed.

Lemma below_scaled (B a Z d : R) :
  0 < B -> B <= a -> 0 < Z -> d < Z -> d < a * Z / B.
Proof.
  intros HB Ha HZ Hd.
  apply Rlt_le_trans with (1 := Hd).
  unfold Rdiv. rewrite Rmult_assoc, (Rmult_comm Z), <- Rmult_assoc.
  rewrite <- (Rmult_1_l Z) at 1.
  apply Rmult_le_compat_r; [lra|].
  apply Rmult_le_reg_r with B; [exact HB|].
  rewrite Rmult_assoc, Rinv_l by lra. lra.
Qed.

Lemma pow2_52 : IZR (2 ^ 52) = 2 ^ 52.
Proof. now rewrite pow_IZR. Qed.

Lemma powerRZ_2_pos (e : Z) : 0 < powerRZ 2 e.
Proof. apply powerRZ_lt. lra. Qed.

(** A product that is a normal double is within [2 ^ -52] of the exact
    product, relative to itself. *)
Lemma mul_close (x y : float) :
  is_normal (x * y)%float = true ->
  value y <> 0
  /\ Rabs (value (x * y)%float - value x * value y)
     < Rabs (value (x * y)%float) / 2 ^ 52.
Proof.
  intros Hn. destruct (is_normal_shape _ Hn) as (sz & mz & ez & Ez & Hmz).
  unfold value. rewrite Ez. rewrite mul_spec in Ez. unfold SF64mul in Ez.
  destruct (Prim2SF x) as [sx|sx| |sx mx ex];
    destruct (Prim2SF y) as [sy|sy| |sy my ey]; try discriminate Ez.
  destruct (SFmul_finite _ _ _ _ _ _ _ _ _ _ _ Ez)
    as (-> & k & Hk & -> & Hb).
  cbn [SF2R]. fold (sign_factor sx) (sign_factor sy)
    (sign_factor (xorb sx sy)).
  assert (Hy : 0 < IZR (Z.pos my) * powerRZ 2 ey).
  { apply Rmult_lt_0_compat; [apply IZR_lt; lia | apply powerRZ_2_pos]. }
  split.
  { destruct sy; unfold sign_factor; lra. }
  rewrite !powerRZ_add by lra. rewrite <- (IZR_pow2 k Hk).
  set (a := IZR (Z.pos mz)). set (b := IZR (Z.pos mx)).
  set (c := IZR (Z.pos my)). set (pk := IZR (2 ^ k)).
  set (Ex := powerRZ 2 ex). set (Ey := powerRZ 2 ey).
  assert (HEx : 0 < Ex) by apply powerRZ_2_pos.
  assert (HEy : 0 < Ey) by apply powerRZ_2_pos.
  assert (Hpk : 0 < pk)
    by (apply IZR_lt, Z.pow_pos_nonneg; lia).
  assert (Ha : 2 ^ 52 <= a)
    by (rewrite <- pow2_52; apply IZR_le; exact Hmz).
  assert (Hd : Rabs (a * pk - b * c) < pk).
  { unfold a, b, c, pk. rewrite <- !mult_IZR, <- minus_IZR, <- abs_IZR.
    apply IZR_lt. exact Hb. }
  rewrite (Rabs_sign_factor (xorb sx sy)), sign_factor_xorb.
  replace (sign_factor sx * sign_factor sy * (a * (Ex * Ey * pk))
           - sign_factor sx * (b * Ex) * (sign_factor sy * (c * Ey)))
    with (sign_factor sx * (sign_factor sy
                            * ((Ex * Ey) * (a * pk - b * c)))) by ring.
  rewrite !Rabs_sign_factor.
  rewrite Rabs_mult, (Rabs_pos_eq (Ex * Ey)) by nra.
  rewrite (Rabs_pos_eq (a * (Ex * Ey * pk))).
  2:{ assert (0 < a) by (assert (0 < 2 ^ 52) by (apply pow_lt; lra); lra).
      apply Rlt_le. repeat apply Rmult_lt_0_compat; assumption. }
  replace (a * (Ex * Ey * pk)) with (a * (Ex * Ey * pk)) by ring.
  apply below_scaled.
  - apply pow_lt; lra.
  - exact Ha.
  - repeat apply Rmult_lt_0_compat; assumption.
  - replace (Ex * Ey * pk) with ((Ex * Ey) * pk) by ring.
    apply Rmult_lt_compat_l; [nra | exact Hd].
Qed.

Lemma sign_factor_inv (s : bool) : / sign_factor s = sign_factor s.
Proof. destruct s; unfold sign_factor; lra. Qed.

Lemma sign_factor_neq_0 (s : bool) : sign_factor s <> 0.
Proof. destruct s; unfold sign_factor; lra. Qed.

(** A quotient that is a normal double is within [2 ^ -52] of the exact
    quotient, relative to itself. *)
Lemma div_close (x y : float) :
  is_normal (x / y)%float = true ->
  value y <> 0
  /\ Rabs (value (x / y)%float - value x / value y)
     < Rabs (value (x / y)%float) / 2 ^ 52.
Proof.
  intros Hn. destruct (is_normal_shape _ Hn) as (sz & mz & ez & Ez & Hmz).
  unfold value. rewrite Ez. rewrite div_spec in Ez. unfold SF64div in Ez.
  destruct (Prim2SF x) as [sx|sx| |sx mx ex];
    destruct (Prim2SF y) as [sy|sy| |sy my ey]; try discriminate Ez.
  destruct (SFdiv_finite _ _ _ _ _ _ _ _ _ _ _ Ez)
    as (-> & k & sh & Hk & Hsh & He & Hb).
  cbn [SF2R]. fold (sign_factor sx) (sign_factor sy)
    (sign_factor (xorb sx sy)).
  assert (Hc : 0 < IZR (Z.pos my)) by (apply IZR_lt; lia).
  assert (HEy : 0 < powerRZ 2 ey) by apply powerRZ_2_pos.
  split.
  { destruct sy; unfold sign_factor; nra. }
  assert (Heq : powerRZ 2 ez * powerRZ 2 sh * powerRZ 2 ey
                = powerRZ 2 ex * powerRZ 2 k).
  { rewrite <- !powerRZ_add by lra. f_equal. lia. }
  rewrite <- (IZR_pow2 k Hk), <- (IZR_pow2 sh Hsh) in Heq.
  assert (Hpk : 0 < IZR (2 ^ k))
    by (apply IZR_lt, Z.pow_pos_nonneg; lia).
  assert (Hpsh : 0 < IZR (2 ^ sh))
    by (apply IZR_lt, Z.pow_pos_nonneg; lia).
  assert (HEz : 0 < powerRZ 2 ez) by apply powerRZ_2_pos.
  assert (Ha : 2 ^ 52 <= IZR (Z.pos mz))
    by (rewrite <- pow2_52; apply IZR_le; exact Hmz).
  assert (Hd : Rabs (IZR (Z.pos mz) * (IZR (2 ^ k) * IZR (Z.pos my))
                     - IZR (Z.pos mx) * IZR (2 ^ sh))
               < IZR (2 ^ k) * IZR (Z.pos my)).
  { rewrite <- !mult_IZR, <- minus_IZR, <- abs_IZR.
    apply IZR_lt. exact Hb. }
  assert (HEx : powerRZ 2 ex
                = powerRZ 2 ez * IZR (2 ^ sh) * powerRZ 2 ey / IZR (2 ^ k)).
  { rewrite Heq. field. lra. }
  rewrite HEx.
  clear HEx Heq.
  set (Ez' := powerRZ 2 ez) in *. set (Ey' := powerRZ 2 ey) in *.
  set (pk := IZR (2 ^ k)) in *. set (psh := IZR (2 ^ sh)) in *.
  set (a := IZR (Z.pos mz)) in *. set (c := IZR (Z.pos my)) in *.
  set (b := IZR (Z.pos mx)) in *.
  clearbody Ez' Ey' pk psh a c b.
  rename HEz into HEz', HEy into HEy'.
  rewrite (Rabs_sign_factor (xorb sx sy)), sign_factor_xorb.
  replace (sign_factor sx * sign_factor sy * (a * Ez')
           - sign_factor sx * (b * (Ez' * psh * Ey' / pk))
             / (sign_factor sy * (c * Ey')))
    with (sign_factor sx
          * (sign_factor sy
             * (Ez' / (pk * c) * (a * (pk * c) - b * psh)))).
  2:{ destruct sx, sy; unfold sign_factor; field; lra. }
  rewrite !Rabs_sign_factor.
  assert (Hpc : 0 < pk * c) by (apply Rmult_lt_0_compat; assumption).
  assert (Ha0 : 0 < a)
    by (assert (0 < 2 ^ 52) by (apply pow_lt; lra); lra).
  rewrite Rabs_mult, (Rabs_pos_eq (Ez' / (pk * c))).
  2:{ apply Rlt_le, Rdiv_lt_0_compat; assumption. }
  rewrite (Rabs_pos_eq (a * Ez')) by (apply Rlt_le, Rmult_lt_0_compat; assumption).
  apply below_scaled.
  - apply pow_lt; lra.
  - exact Ha.
  - exact HEz'.
  - replace Ez' with (Ez' / (pk * c) * (pk * c)) at 2 by (field; lra).
    apply Rmult_lt_compat_l; [apply Rdiv_lt_0_compat; assumption|].
    exact Hd.
Qed.

(** Two such steps, a product by [p] and a quotient by the same [p],
    land within [2 ^ -50] of the start. *)
Lemma round_trip_close (x p t q : R) :
  p <> 0 ->
  Rabs (t - x * p) < Rabs t / 2 ^ 52 ->
  Rabs (q - t / p) < Rabs q / 2 ^ 52 ->
  Rabs (q - x) <= Rabs x / 2 ^ 50.
Proof.
  intros Hp H1 H2.
  assert (HB : 4 <= 2 ^ 52) by (simpl; lra).
  assert (HB' : 2 ^ 52 = 4 * 2 ^ 50) by (simpl; lra).
  assert (H50 : 0 < 2 ^ 50) by (apply pow_lt; lra).
  set (B := 2 ^ 52) in *.
  assert (Hp' : 0 < Rabs p) by (apply Rabs_pos_lt; exact Hp).
  assert (H1' : Rabs (t / p - x) < Rabs (t / p) / B).
  { replace (t / p - x) with ((t - x * p) / p) by (field; exact Hp).
    unfold Rdiv at 1 3. rewrite !Rabs_mult, Rabs_inv.
    unfold Rdiv in H1 |- *.
    replace (Rabs t * / Rabs p * / B) with (Rabs t * / B * / Rabs p) by ring.
    apply Rmult_lt_compat_r; [apply Rinv_0_lt_compat; exact Hp' | exact H1]. }
  set (t' := t / p) in *.
  pose proof (Rabs_pos t') as HT. pose proof (Rabs_pos q) as HQ.
  pose proof (Rabs_pos x) as HX.
  assert (T1 : Rabs t' <= Rabs x + Rabs (t' - x)).
  { replace t' with (x + (t' - x)) at 1 by ring. apply Rabs_triang. }
  assert (T2 : Rabs q <= Rabs t' + Rabs (q - t')).
  { replace q with (t' + (q - t')) at 1 by ring. apply Rabs_triang. }
  assert (T3 : Rabs (q - x) <= Rabs (q - t') + Rabs (t' - x)).
  { replace (q - x) with ((q - t') + (t' - x)) by ring. apply Rabs_triang. }
  assert (Hu : forall r, 0 <= r -> r / B <= r / 4).
  { intros r Hr. unfold Rdiv. apply Rmult_le_compat_l; [exact Hr|].
    apply Rinv_le_contravar; lra. }
  pose proof (Hu _ HT) as HuT. pose proof (Hu _ HQ) as HuQ.
  assert (HTQ : Rabs t' + Rabs q <= 4 * Rabs x) by lra.
  assert (Hsum : Rabs (q - x) <= (Rabs t' + Rabs q) / B).
  { unfold Rdiv in *. rewrite Rmult_plus_distr_r. lra. }
  apply Rle_trans with (1 := Hsum).
  rewrite HB'. unfold Rdiv.
  replace (/ (4 * 2 ^ 50)) with (/ 4 * / 2 ^ 50) by (field; lra).
  rewrite <- Rmult_assoc.
  apply Rmult_le_compat_r; [apply Rlt_le, Rinv_0_lt_compat; exact H50 | lra].
Qed.

(** Multiplying by a double and dividing by it again, both without
    overflow or underflow, gives the start back to within [2 ^ -50]. *)
Lemma mul_div_round_trip (x p : float) :
  is_normal (x * p)%float = true ->
  is_normal (x * p / p)%float = true ->
  Rabs (value (x * p / p)%float - value x) <= Rabs (value x) / 2 ^ 50.
Proof.
  intros H1 H2.
  destruct (mul_close x p H1) as (Hp & B1).
  destruct (div_close (x * p)%float p H2) as (_ & B2).
  exact (round_trip_close (value x) (value p) (value (x * p)%float)
           (value (x * p / p)%float) Hp B1 B2).
Qed.

End FloatValues.

Set Implicit Arguments.

(** ** The round trips on binary64 *)

Section Binary64RoundTrips.
Context {Opts : Type} {log : Log float}.

Implicit Types (m : GaussianModel1D float Opts).



End Binary64RoundTrips.

(** ** Runs of the round trips *)

Section RoundTripRuns.
Import Sample.

#[local] Existing Instances log_at_two step_cdf exact_repr no_options.

Local Open Scope float_scope.





End RoundTripRuns.
